(** * ICMP Echo message codec: encoding, decoding and the Internet checksum

    A shallow embedding of [include/icmp_message.h] and [src/icmp_message.cc].
    Unsigned machine integers ([uint8_t], [uint16_t], [uint32_t], [size_t]
    indices) are binary naturals [N]; every C++ conversion to a narrower
    unsigned type is written out as a reduction modulo [2^w].  A
    [std::vector<uint8_t>] is a [list N]. *)

From Stdlib Require Import NArith ZArith List Lia Bool.
From Equations Require Import Equations.
From stdpp Require Import base list.
Import ListNotations.

Local Open Scope N_scope.

(** [lia] sees through division and remainder by constants. *)
Ltac Zify.zify_post_hook ::= Z.to_euclidean_division_equations.

(** Loops whose state is an unsigned integer that gets smaller on every
    pass are defined by recursion on [N.lt].  The accessibility proof is
    guarded by constructors, so that closed calls evaluate. *)
#[local] Instance N_lt_WellFounded : WellFounded N.lt :=
  Acc_intro_generator 32 N.lt_wf_0.

(** ** Fixed-width unsigned integers *)

Module UInt.

Definition to_uint8 (x : N) : N := x mod 2 ^ 8.
Definition to_uint16 (x : N) : N := x mod 2 ^ 16.
Definition to_uint32 (x : N) : N := x mod 2 ^ 32.

(** [~x] on a [uint32_t]. *)
Definition not32 (x : N) : N := N.lnot x 32.

Definition is_uint8 (x : N) : Prop := x < 2 ^ 8.
Definition is_uint16 (x : N) : Prop := x < 2 ^ 16.
Definition is_uint32 (x : N) : Prop := x < 2 ^ 32.

End UInt.
Import UInt.

(** ** The message class *)

(** The private data members of [class IcmpMessage]. *)
Record IcmpMessage : Type := MkIcmpMessage {
  type_ : N;              (* uint8_t *)
  code_ : N;              (* uint8_t *)
  checksum_ : N;          (* uint16_t *)
  identifier_ : N;        (* uint16_t *)
  sequence_number_ : N;   (* uint16_t *)
  data_ : list N          (* std::vector<uint8_t> *)
}.

(** The values the C++ types allow for each member. *)
Record wf_message (m : IcmpMessage) : Prop := {
  wf_type : is_uint8 (type_ m);
  wf_code : is_uint8 (code_ m);
  wf_checksum : is_uint16 (checksum_ m);
  wf_identifier : is_uint16 (identifier_ m);
  wf_sequence_number : is_uint16 (sequence_number_ m);
  wf_data : Forall is_uint8 (data_ m)
}.

(** [IcmpMessage::IcmpMessage()] *)
Definition IcmpMessage_default : IcmpMessage :=
  MkIcmpMessage 8 0 0 0 0 [].

(** [IcmpMessage::IcmpMessage(type, code, id, seq, data)] *)
Definition IcmpMessage_new (type code id seq : N) (data : list N) : IcmpMessage :=
  MkIcmpMessage type code 0 id seq data.

(** ** [IcmpMessage::ComputeChecksum] *)

(** The [for] loop: [i] runs over the even indices with [i + 1] in range and
    adds the big-endian word [(buffer[i] << 8) | buffer[i + 1]] to the
    [uint32_t] accumulator.  The list is consumed two bytes at a time. *)
Fixpoint sum_words (buffer : list N) (sum : N) : N :=
  match buffer with
  | b0 :: b1 :: rest =>
      let word := to_uint16 (N.lor (N.shiftl b0 8) b1) in
      sum_words rest (to_uint32 (sum + word))
  | _ => sum
  end.

(** The [if (buffer.size() % 2 == 1)] statement. *)
Definition add_odd_byte (buffer : list N) (sum : N) : N :=
  if N.of_nat (length buffer) mod 2 =? 1 then
    let last := to_uint16 (N.shiftl (List.last buffer 0) 8) in
    to_uint32 (sum + last)
  else sum.

(** One pass through the body of the [while (sum >> 16)] loop. *)
Definition fold_step (sum : N) : N :=
  to_uint32 (N.land sum 0xFFFF + N.shiftr sum 16).

(** The [while (sum >> 16)] loop.  The helpers are sealed while the
    definition is elaborated, so that its equations are stated on them. *)
#[local] Opaque fold_step N.shiftr N_lt_WellFounded.
Equations? fold_carry (sum : N) : N by wf sum N.lt :=
  fold_carry sum with N.eq_dec (N.shiftr sum 16) 0 := {
    | left _ => sum
    | right Hcarry => fold_carry (fold_step sum) }.
Proof.
  with_strategy transparent [fold_step N.shiftr] unfold fold_step, to_uint32.
  change 0xFFFF with (N.ones 16).
  rewrite N.land_ones, N.shiftr_div_pow2 in *.
  change (2 ^ 16) with 65536 in *. change (2 ^ 32) with 4294967296. lia.
Qed.

(** The number of times the loop body runs. *)
Equations? fold_iterations (sum : N) : nat by wf sum N.lt :=
  fold_iterations sum with N.eq_dec (N.shiftr sum 16) 0 := {
    | left _ => O
    | right Hcarry => S (fold_iterations (fold_step sum)) }.
Proof.
  with_strategy transparent [fold_step N.shiftr] unfold fold_step, to_uint32.
  change 0xFFFF with (N.ones 16).
  rewrite N.land_ones, N.shiftr_div_pow2 in *.
  change (2 ^ 16) with 65536 in *. change (2 ^ 32) with 4294967296. lia.
Qed.

#[local] Transparent fold_step N.shiftr N_lt_WellFounded.

Definition ComputeChecksum (buffer : list N) : N :=
  let sum := 0 in
  let sum := sum_words buffer sum in
  let sum := add_odd_byte buffer sum in
  let sum := fold_carry sum in
  to_uint16 (not32 sum).

(** The accumulator [sum] when the [while] loop is entered and when it is
    left, as functions of the buffer. *)
Definition sum_before_fold (buffer : list N) : N :=
  add_odd_byte buffer (sum_words buffer 0).

Definition sum_after_fold (buffer : list N) : N :=
  fold_carry (sum_before_fold buffer).

(** ** [IcmpMessage::Encode] *)

(** [buffer.push_back(x)] *)
Definition push_back (buffer : list N) (x : N) : list N := buffer ++ [x].

(** The buffer as it is when [ComputeChecksum] is called: the header with
    the two checksum bytes still zero, then the payload. *)
Definition Encode_placeholder (m : IcmpMessage) : list N :=
  let buffer := [] in
  let buffer := push_back buffer (type_ m) in
  let buffer := push_back buffer (code_ m) in
  let buffer := push_back buffer 0 in
  let buffer := push_back buffer 0 in
  let buffer := push_back buffer (to_uint8 (N.shiftr (identifier_ m) 8)) in
  let buffer := push_back buffer (to_uint8 (N.land (identifier_ m) 0xFF)) in
  let buffer := push_back buffer (to_uint8 (N.shiftr (sequence_number_ m) 8)) in
  let buffer := push_back buffer (to_uint8 (N.land (sequence_number_ m) 0xFF)) in
  buffer ++ data_ m.

(** [buffer[2]] and [buffer[3]] are written through [operator[]]; both
    indices are inside the eight header bytes pushed before. *)
Definition Encode (m : IcmpMessage) : list N :=
  let buffer := Encode_placeholder m in
  let checksum := ComputeChecksum buffer in
  let buffer := <[2%nat := to_uint8 (N.land (N.shiftr checksum 8) 0xFF)]> buffer in
  let buffer := <[3%nat := to_uint8 (N.land checksum 0xFF)]> buffer in
  buffer.

(** ** Accessors *)

Definition type (m : IcmpMessage) : N := type_ m.
Definition code (m : IcmpMessage) : N := code_ m.
Definition identifier (m : IcmpMessage) : N := identifier_ m.
Definition sequence_number (m : IcmpMessage) : N := sequence_number_ m.
Definition data (m : IcmpMessage) : list N := data_ m.

(** The read-only interface of the class as data: the data members, the
    accessor member functions that the header declares, and the value that a
    member holds or a call returns, tagged with its C++ type. *)
Inductive Field : Type :=
  | FType | FCode | FChecksum | FIdentifier | FSequenceNumber | FData.

Inductive Accessor : Type :=
  | acc_type | acc_code | acc_identifier | acc_sequence_number | acc_data.

Inductive Value : Type :=
  | VUInt8 (x : N)
  | VUInt16 (x : N)
  | VBytes (l : list N).

Definition field_value (f : Field) (m : IcmpMessage) : Value :=
  match f with
  | FType => VUInt8 (type_ m)
  | FCode => VUInt8 (code_ m)
  | FChecksum => VUInt16 (checksum_ m)
  | FIdentifier => VUInt16 (identifier_ m)
  | FSequenceNumber => VUInt16 (sequence_number_ m)
  | FData => VBytes (data_ m)
  end.

Definition call (a : Accessor) (m : IcmpMessage) : Value :=
  match a with
  | acc_type => VUInt8 (type m)
  | acc_code => VUInt8 (code m)
  | acc_identifier => VUInt16 (identifier m)
  | acc_sequence_number => VUInt16 (sequence_number m)
  | acc_data => VBytes (data m)
  end.

(** [a] is a read-only accessor for the member [f]. *)
Definition accessor_for (f : Field) (a : Accessor) : Prop :=
  forall m, call a m = field_value f m.

(** ** [IcmpMessage::Decode] *)

Inductive DecodeError : Type := MalformedMessage.

Inductive DecodeResult : Type :=
  | DecodeOk (m : IcmpMessage)
  | DecodeFailure (e : DecodeError).

(** Two consecutive bytes read as a big-endian 16-bit field. *)
Definition be16 (hi lo : N) : N := N.lor (N.shiftl hi 8) lo.

(** Modelled from the spec: the body of [IcmpMessage::Decode], which the
    header declares but no source file defines.  The steps are those of
    section 4.3: a buffer shorter than four bytes is rejected; a type byte
    other than 0 or 8 is rejected; the code is byte 1 and the checksum field
    bytes 2-3; with at least eight bytes the identifier is bytes 4-5 and the
    sequence number bytes 6-7, otherwise both are zero; the bytes after the
    eight-byte header are the payload.  The result is the discriminated
    value of section 9, with the single failure kind of section 7. *)
Definition Decode (buffer : list N) : DecodeResult :=
  let byte (i : nat) := nth i buffer 0 in
  if (length buffer <? 4)%nat then DecodeFailure MalformedMessage
  else if negb ((byte 0%nat =? 0) || (byte 0%nat =? 8)) then
    DecodeFailure MalformedMessage
  else
    let full_header := (8 <=? length buffer)%nat in
    DecodeOk {|
      type_ := byte 0%nat;
      code_ := byte 1%nat;
      checksum_ := be16 (byte 2%nat) (byte 3%nat);
      identifier_ := if full_header then be16 (byte 4%nat) (byte 5%nat) else 0;
      sequence_number_ := if full_header then be16 (byte 6%nat) (byte 7%nat) else 0;
      data_ := drop 8 buffer
    |}.

(** The [bool] that the declared member function returns. *)
Definition Decode_accepts (buffer : list N) : bool :=
  match Decode buffer with
  | DecodeOk _ => true
  | DecodeFailure _ => false
  end.

(** ** The Internet checksum as the specification words it *)

Module RFC1071.

(** A pair of consecutive bytes as a big-endian word, the first byte being
    the high one. *)
Definition word (hi lo : N) : N := 2 ^ 8 * hi + lo.

(** The sum of all words in an accumulator that never overflows; a final
    odd byte is the high byte of a word whose low byte is zero. *)
Fixpoint word_sum (buffer : list N) : N :=
  match buffer with
  | hi :: lo :: rest => word hi lo + word_sum rest
  | [hi] => word hi 0
  | [] => 0
  end.

Definition carry_in (sum : N) : N := sum mod 2 ^ 16 + sum / 2 ^ 16.

(** The carry out of the low 16 bits is folded back until none remains. *)
#[local] Opaque carry_in N_lt_WellFounded.
Equations? fold16 (sum : N) : N by wf sum N.lt :=
  fold16 sum with decide (sum < 2 ^ 16) := {
    | left _ => sum
    | right Hcarry => fold16 (carry_in sum) }.
Proof.
  with_strategy transparent [carry_in] unfold carry_in.
  change (2 ^ 16) with 65536 in *. lia.
Qed.
#[local] Transparent carry_in N_lt_WellFounded.

(** The bit-wise complement of the final 16-bit sum. *)
Definition checksum (buffer : list N) : N :=
  N.lnot (fold16 (word_sum buffer)) 16.

End RFC1071.

(** ** Functions used to state the properties *)

(** The value in [0, 0xFFFF] that a sum stands for in one's-complement
    arithmetic: zero for zero, otherwise the representative of its class
    modulo [0xFFFF] taken in [1, 0xFFFF]. *)
Definition end_around (sum : N) : N :=
  if sum =? 0 then 0 else (sum - 1) mod 65535 + 1.

(** The words that [ComputeChecksum] adds up, without the wrap-around of
    the accumulator. *)
Fixpoint words_total (buffer : list N) : N :=
  match buffer with
  | b0 :: b1 :: rest => to_uint16 (N.lor (N.shiftl b0 8) b1) + words_total rest
  | [b] => to_uint16 (N.shiftl b 8)
  | [] => 0
  end.

(** A message used to run the statements below on a concrete input: an Echo
    Request with identifier [0x1234], sequence number 1 and three payload
    bytes. *)
Definition sample_message : IcmpMessage :=
  IcmpMessage_new 8 0 0x1234 1 [0xDE; 0xAD; 0xBE].

(** A buffer on which the accumulator wraps: 131076 bytes [0xFF], that is
    65538 words [0xFFFF]. *)
Definition wrapping_buffer : list N := repeat 255 (N.to_nat 131076).


(** * Properties *)

(** ** Arithmetic of the bit operations *)

(** Ranges and conversions are unfolded to inequalities and remainders with
    literal moduli, which [lia] decides. *)
Ltac uint_unfold :=
  unfold is_uint8, is_uint16, is_uint32, to_uint8, to_uint16, to_uint32 in *;
  change (2 ^ 8) with 256 in *;
  change (2 ^ 16) with 65536 in *;
  change (2 ^ 32) with 4294967296 in *.

Ltac uint_lia := uint_unfold; lia.

Section BitFacts.

Lemma land_low16 (x : N) : N.land x 0xFFFF = x mod 65536.
Proof. change 0xFFFF with (N.ones 16). now rewrite N.land_ones. Qed.

Lemma land_low8 (x : N) : N.land x 0xFF = x mod 256.
Proof. change 0xFF with (N.ones 8). now rewrite N.land_ones. Qed.

Lemma shiftr_16 (x : N) : N.shiftr x 16 = x / 65536.
Proof. now rewrite N.shiftr_div_pow2. Qed.

Lemma shiftr_8 (x : N) : N.shiftr x 8 = x / 256.
Proof. now rewrite N.shiftr_div_pow2. Qed.

Lemma shiftl_8 (x : N) : N.shiftl x 8 = 256 * x.
Proof. rewrite N.shiftl_mul_pow2. change (2 ^ 8) with 256. lia. Qed.

Lemma lor_shiftl_8 (hi lo : N) :
  lo < 256 -> N.lor (N.shiftl hi 8) lo = 256 * hi + lo.
Proof.
  intros Hlo.
  assert (Hdisj : N.land (N.shiftl hi 8) lo = 0).
  { apply N.bits_inj. intros i. rewrite N.land_spec, N.bits_0.
    destruct (N.lt_ge_cases i 8) as [Hi | Hi].
    - now rewrite N.shiftl_spec_low.
    - rewrite (N.testbit_eqb lo i), andb_comm.
      rewrite N.div_small; [reflexivity |].
      apply N.lt_le_trans with (2 ^ 8); [exact Hlo |].
      now apply N.pow_le_mono_r. }
  rewrite <- N.lxor_lor by exact Hdisj.
  rewrite <- N.add_nocarry_lxor by exact Hdisj.
  now rewrite shiftl_8.
Qed.

Lemma not32_low (x : N) : x < 65536 -> to_uint16 (not32 x) = 65535 - x.
Proof.
  intros Hx. unfold not32.
  rewrite N.lnot_sub_low.
  - change (N.ones 32) with 4294967295. uint_lia.
  - destruct (N.eq_dec x 0) as [Hz | Hnz]; [now rewrite Hz |].
    apply N.log2_lt_pow2; uint_lia.
Qed.

End BitFacts.

(** ** The carry-fold loop *)

Section FoldCarry.

Lemma fold_step_eq (sum : N) :
  fold_step sum = (sum mod 65536 + sum / 65536) mod 4294967296.
Proof. unfold fold_step. rewrite land_low16, shiftr_16. uint_lia. Qed.

Lemma fold_step_lt (sum : N) :
  N.shiftr sum 16 <> 0 -> fold_step sum < sum.
Proof.
  intros H. rewrite fold_step_eq. rewrite shiftr_16 in H. lia.
Qed.

Lemma fold_carry_done (sum : N) : sum < 65536 -> fold_carry sum = sum.
Proof.
  intros H. simp fold_carry.
  destruct (N.eq_dec (N.shiftr sum 16) 0) as [He | Hne]; [reflexivity |].
  exfalso. apply Hne. rewrite shiftr_16. lia.
Qed.

Lemma fold_carry_again (sum : N) :
  65536 <= sum -> fold_carry sum = fold_carry (fold_step sum).
Proof.
  intros H. rewrite (fold_carry_equation_1 sum).
  destruct (N.eq_dec (N.shiftr sum 16) 0) as [He | Hne]; [| reflexivity].
  exfalso. rewrite shiftr_16 in He. lia.
Qed.

Lemma fold_iterations_done (sum : N) : sum < 65536 -> fold_iterations sum = O.
Proof.
  intros H. simp fold_iterations.
  destruct (N.eq_dec (N.shiftr sum 16) 0) as [He | Hne]; [reflexivity |].
  exfalso. apply Hne. rewrite shiftr_16. lia.
Qed.

Lemma fold_iterations_again (sum : N) :
  65536 <= sum -> fold_iterations sum = S (fold_iterations (fold_step sum)).
Proof.
  intros H. rewrite (fold_iterations_equation_1 sum).
  destruct (N.eq_dec (N.shiftr sum 16) 0) as [He | Hne]; [| reflexivity].
  exfalso. rewrite shiftr_16 in He. lia.
Qed.

Lemma end_around_bound (sum : N) : end_around sum < 65536.
Proof. unfold end_around. destruct (N.eqb_spec sum 0); lia. Qed.

(** On a 32-bit accumulator the loop computes [end_around]. *)
Lemma fold_carry_end_around (sum : N) :
  is_uint32 sum -> fold_carry sum = end_around sum.
Proof.
  intros H32. uint_unfold. unfold end_around.
  destruct (N.lt_ge_cases sum 65536) as [Hlow | Hhigh].
  { rewrite fold_carry_done by exact Hlow. destruct (N.eqb_spec sum 0); lia. }
  rewrite fold_carry_again, fold_step_eq by exact Hhigh.
  destruct (N.eqb_spec sum 0) as [Hz | Hnz]; [lia |].
  set (s1 := (sum mod 65536 + sum / 65536) mod 4294967296).
  assert (Hs1 : s1 = sum mod 65536 + sum / 65536) by (subst s1; lia).
  destruct (N.lt_ge_cases s1 65536) as [Hlow1 | Hhigh1].
  { rewrite fold_carry_done by exact Hlow1. lia. }
  rewrite fold_carry_again, fold_step_eq by exact Hhigh1.
  rewrite fold_carry_done; lia.
Qed.

Lemma fold_iterations_le_2 (sum : N) :
  is_uint32 sum -> (fold_iterations sum <= 2)%nat.
Proof.
  intros H32. uint_unfold.
  destruct (N.lt_ge_cases sum 65536) as [Hlow | Hhigh].
  { rewrite fold_iterations_done by exact Hlow. lia. }
  rewrite fold_iterations_again, fold_step_eq by exact Hhigh.
  set (s1 := (sum mod 65536 + sum / 65536) mod 4294967296).
  assert (Hs1 : s1 = sum mod 65536 + sum / 65536) by (subst s1; lia).
  destruct (N.lt_ge_cases s1 65536) as [Hlow1 | Hhigh1].
  { rewrite fold_iterations_done by exact Hlow1. lia. }
  rewrite fold_iterations_again, fold_step_eq by exact Hhigh1.
  rewrite fold_iterations_done; lia.
Qed.

End FoldCarry.

(** ** The summation loop *)

Section Summation.

(** Lists are taken two bytes at a time. *)
Lemma list_pair_ind (P : list N -> Prop) :
  P [] ->
  (forall b, P [b]) ->
  (forall b0 b1 rest, P rest -> P (b0 :: b1 :: rest)) ->
  forall l, P l.
Proof.
  intros Hnil Hone Hpair.
  assert (Hboth : forall l, P l /\ forall b, P (b :: l)).
  { induction l as [| b l [IH1 IH2]]; split; auto. }
  intros l. apply Hboth.
Qed.

Lemma add_odd_byte_pair (b0 b1 : N) (rest : list N) (sum : N) :
  add_odd_byte (b0 :: b1 :: rest) sum = add_odd_byte rest sum.
Proof.
  unfold add_odd_byte.
  replace (N.of_nat (length (b0 :: b1 :: rest)) mod 2)
    with (N.of_nat (length rest) mod 2) by (cbn [length]; lia).
  destruct rest as [| b2 rest']; reflexivity.
Qed.

Lemma to_uint32_bound (x : N) : is_uint32 (to_uint32 x).
Proof. uint_lia. Qed.

Lemma sum_words_total (buffer : list N) : forall sum,
  is_uint32 sum ->
  add_odd_byte buffer (sum_words buffer sum) = to_uint32 (sum + words_total buffer).
Proof.
  induction buffer as [| b | b0 b1 rest IH] using list_pair_ind; intros sum Hsum.
  - change (add_odd_byte [] (sum_words [] sum)) with sum.
    cbn [words_total]. uint_lia.
  - reflexivity.
  - rewrite add_odd_byte_pair. cbn [sum_words words_total].
    rewrite IH by apply to_uint32_bound. uint_lia.
Qed.

Lemma sum_before_fold_total (buffer : list N) :
  sum_before_fold buffer = to_uint32 (words_total buffer).
Proof.
  unfold sum_before_fold. rewrite sum_words_total; [reflexivity |].
  unfold is_uint32. reflexivity.
Qed.

Lemma sum_before_fold_bound (buffer : list N) : is_uint32 (sum_before_fold buffer).
Proof. rewrite sum_before_fold_total. apply to_uint32_bound. Qed.

Lemma sum_after_fold_eq (buffer : list N) :
  sum_after_fold buffer = end_around (to_uint32 (words_total buffer)).
Proof.
  unfold sum_after_fold. rewrite fold_carry_end_around.
  - now rewrite sum_before_fold_total.
  - apply sum_before_fold_bound.
Qed.

Lemma ComputeChecksum_eq (buffer : list N) :
  ComputeChecksum buffer = 65535 - sum_after_fold buffer.
Proof.
  change (ComputeChecksum buffer) with (to_uint16 (not32 (sum_after_fold buffer))).
  apply not32_low. rewrite sum_after_fold_eq. apply end_around_bound.
Qed.

Lemma ComputeChecksum_bound (buffer : list N) : is_uint16 (ComputeChecksum buffer).
Proof.
  rewrite ComputeChecksum_eq. uint_lia.
Qed.

End Summation.

(** ** Encoding *)

Section EncodeFacts.

Lemma uint16_high_byte (x : N) : is_uint16 x -> to_uint8 (N.shiftr x 8) = x / 256.
Proof. rewrite shiftr_8. uint_lia. Qed.

Lemma uint16_low_byte (x : N) : to_uint8 (N.land x 0xFF) = x mod 256.
Proof. rewrite land_low8. uint_lia. Qed.

Lemma uint16_high_byte_masked (x : N) :
  is_uint16 x -> to_uint8 (N.land (N.shiftr x 8) 0xFF) = x / 256.
Proof. rewrite land_low8, shiftr_8. uint_lia. Qed.

Lemma be16_bytes (x : N) : is_uint16 x -> be16 (x / 256) (x mod 256) = x.
Proof.
  intros _. unfold be16. rewrite lor_shiftl_8 by lia. lia.
Qed.

Lemma Encode_placeholder_eq (m : IcmpMessage) :
  Encode_placeholder m =
  type_ m :: code_ m :: 0 :: 0
    :: to_uint8 (N.shiftr (identifier_ m) 8)
    :: to_uint8 (N.land (identifier_ m) 0xFF)
    :: to_uint8 (N.shiftr (sequence_number_ m) 8)
    :: to_uint8 (N.land (sequence_number_ m) 0xFF)
    :: data_ m.
Proof. reflexivity. Qed.

Lemma Encode_eq (m : IcmpMessage) :
  let checksum := ComputeChecksum (Encode_placeholder m) in
  Encode m =
  type_ m :: code_ m
    :: to_uint8 (N.land (N.shiftr checksum 8) 0xFF)
    :: to_uint8 (N.land checksum 0xFF)
    :: to_uint8 (N.shiftr (identifier_ m) 8)
    :: to_uint8 (N.land (identifier_ m) 0xFF)
    :: to_uint8 (N.shiftr (sequence_number_ m) 8)
    :: to_uint8 (N.land (sequence_number_ m) 0xFF)
    :: data_ m.
Proof. reflexivity. Qed.


Lemma Encode_wf (m : IcmpMessage) :
  wf_message m ->
  let checksum := ComputeChecksum (Encode_placeholder m) in
  Encode m =
  [type_ m; code_ m; checksum / 256; checksum mod 256;
   identifier_ m / 256; identifier_ m mod 256;
   sequence_number_ m / 256; sequence_number_ m mod 256] ++ data_ m.
Proof.
  intros [_ _ _ Hid Hseq _] checksum. rewrite Encode_eq. fold checksum.
  rewrite uint16_high_byte_masked by apply ComputeChecksum_bound.
  rewrite !uint16_high_byte, !uint16_low_byte by assumption.
  reflexivity.
Qed.

End EncodeFacts.

(** ** The verification identity *)

Section Verification.

(** Adding to a sum the complement of its folded value gives a sum that
    folds to [0xFFFF], also when the 32-bit accumulator has wrapped. *)
Lemma end_around_complement (total : N) :
  end_around (to_uint32 (total + (65535 - end_around (to_uint32 total)))) = 65535.
Proof.
  unfold end_around. uint_unfold.
  destruct (N.eqb_spec (total mod 4294967296) 0) as [Hz | Hnz].
  - destruct (N.eqb_spec ((total + (65535 - 0)) mod 4294967296) 0); lia.
  - destruct (N.eqb_spec
      ((total + (65535 - ((total mod 4294967296 - 1) mod 65535 + 1)))
         mod 4294967296) 0); lia.
Qed.

Lemma words_total_Encode (m : IcmpMessage) :
  words_total (Encode m) =
  words_total (Encode_placeholder m) + ComputeChecksum (Encode_placeholder m).
Proof.
  rewrite Encode_eq, Encode_placeholder_eq. cbv zeta.
  set (checksum := ComputeChecksum _).
  assert (Hcs : is_uint16 checksum) by apply ComputeChecksum_bound.
  cbn [words_total].
  rewrite uint16_high_byte_masked, uint16_low_byte by exact Hcs.
  fold (be16 (checksum / 256) (checksum mod 256)).
  rewrite be16_bytes by exact Hcs.
  replace (to_uint16 checksum) with checksum by uint_lia.
  change (to_uint16 (N.lor (N.shiftl 0 8) 0)) with 0. lia.
Qed.

Lemma sum_after_fold_Encode (m : IcmpMessage) : sum_after_fold (Encode m) = 65535.
Proof.
  rewrite sum_after_fold_eq, words_total_Encode, ComputeChecksum_eq.
  rewrite sum_after_fold_eq. apply end_around_complement.
Qed.

End Verification.

(** ** Encode: layout and default message *)

Lemma sample_message_wf : wf_message sample_message.
Proof.
  split; unfold is_uint8, is_uint16; cbn; try lia.
  repeat constructor.
Defined.

(** C5: encoding the default-constructed message gives the eight bytes
    [8, 0, csHi, csLo, 0, 0, 0, 0], where [csHi, csLo] are the bytes of the
    checksum of [8, 0, 0, 0, 0, 0, 0, 0], which is [0xF7FF]. *)
Theorem Encode_default :
  let checksum := ComputeChecksum [8; 0; 0; 0; 0; 0; 0; 0] in
  Encode IcmpMessage_default =
    [8; 0; checksum / 256; checksum mod 256; 0; 0; 0; 0]
  /\ length (Encode IcmpMessage_default) = 8%nat
  /\ checksum = 0xF7FF
  /\ checksum = RFC1071.checksum [8; 0; 0; 0; 0; 0; 0; 0]
  /\ type IcmpMessage_default = 8
  /\ data IcmpMessage_default = [].
Proof. vm_compute. repeat split. Qed.

(** ** Decode *)

(** C1: a well-typed message of type 0 or 8 survives encoding followed by
    decoding: the decoder succeeds, and the type, code, identifier, sequence
    number and payload it reports are those of the message. *)
Theorem Decode_Encode (m : IcmpMessage) :
  wf_message m ->
  type m = 0 \/ type m = 8 ->
  exists m',
    Decode (Encode m) = DecodeOk m'
    /\ type m' = type m
    /\ code m' = code m
    /\ identifier m' = identifier m
    /\ sequence_number m' = sequence_number m
    /\ data m' = data m.
Proof.
  intros Hwf Hty. rewrite (Encode_wf m Hwf). cbv zeta.
  set (checksum := ComputeChecksum _).
  destruct Hwf as [_ _ _ Hid Hseq _].
  unfold Decode. cbn [app length nth drop Nat.ltb Nat.leb].
  unfold type in Hty.
  assert (Hok : negb ((type_ m =? 0) || (type_ m =? 8)) = false).
  { destruct Hty as [-> | ->]; reflexivity. }
  rewrite Hok. eexists. split; [reflexivity |].
  unfold type, code, identifier, sequence_number, data. cbn.
  rewrite !be16_bytes by assumption. repeat split.
Qed.

Lemma Decode_Encode_witness :
  exists m',
    Decode (Encode sample_message) = DecodeOk m'
    /\ type m' = 8
    /\ code m' = 0
    /\ identifier m' = 0x1234
    /\ sequence_number m' = 1
    /\ data m' = [0xDE; 0xAD; 0xBE].
Proof.
  apply (Decode_Encode sample_message sample_message_wf).
  right. reflexivity.
Defined.

Lemma Decode_short (buffer : list N) :
  (length buffer < 4)%nat -> Decode buffer = DecodeFailure MalformedMessage.
Proof.
  intros H. unfold Decode.
  now rewrite (proj2 (Nat.ltb_lt _ _) H).
Qed.

Lemma Decode_long (buffer : list N) :
  (4 <= length buffer)%nat ->
  Decode buffer =
  if negb ((nth 0 buffer 0 =? 0) || (nth 0 buffer 0 =? 8)) then
    DecodeFailure MalformedMessage
  else
    DecodeOk {|
      type_ := nth 0 buffer 0;
      code_ := nth 1 buffer 0;
      checksum_ := be16 (nth 2 buffer 0) (nth 3 buffer 0);
      identifier_ :=
        if (8 <=? length buffer)%nat
        then be16 (nth 4 buffer 0) (nth 5 buffer 0) else 0;
      sequence_number_ :=
        if (8 <=? length buffer)%nat
        then be16 (nth 6 buffer 0) (nth 7 buffer 0) else 0;
      data_ := drop 8 buffer
    |}.
Proof.
  intros H. unfold Decode.
  now rewrite (proj2 (Nat.ltb_ge _ _) H).
Qed.

Lemma type_byte_test (t : N) :
  negb ((t =? 0) || (t =? 8)) = true <-> t <> 0 /\ t <> 8.
Proof.
  destruct (N.eqb_spec t 0), (N.eqb_spec t 8); cbn; split;
    intros H; try discriminate; try lia; now destruct H.
Qed.

(** C2: [Decode] fails exactly on the buffers that are shorter than four
    bytes or whose first byte is neither 0 nor 8; a failure carries no more
    than the one kind [MalformedMessage]; the one-byte buffer [99] is
    rejected. *)
Theorem Decode_failure_iff :
  (forall buffer : list N,
     Decode buffer = DecodeFailure MalformedMessage <->
     (length buffer < 4)%nat \/
     (exists t, buffer !! 0%nat = Some t /\ t <> 0 /\ t <> 8))
  /\ (forall buffer e, Decode buffer = DecodeFailure e <-> Decode_accepts buffer = false)
  /\ (forall e : DecodeError, e = MalformedMessage)
  /\ Decode [99] = DecodeFailure MalformedMessage.
Proof.
  repeat split.
  - intros Hfail.
    destruct (Nat.lt_ge_cases (length buffer) 4) as [Hshort | Hlong];
      [now left | right].
    rewrite Decode_long in Hfail by exact Hlong.
    destruct buffer as [| t rest]; [cbn in Hlong; lia |].
    exists t. split; [reflexivity |]. cbn [nth] in Hfail.
    apply type_byte_test.
    destruct (negb ((t =? 0) || (t =? 8))); [reflexivity | discriminate].
  - intros [Hshort | (t & Hhead & Ht)]; [now apply Decode_short |].
    destruct (Nat.lt_ge_cases (length buffer) 4) as [Hshort | Hlong];
      [now apply Decode_short |].
    rewrite Decode_long by exact Hlong.
    destruct buffer as [| t' rest]; [discriminate |].
    cbn in Hhead. injection Hhead as ->. cbn [nth].
    now rewrite (proj2 (type_byte_test t) Ht).
  - unfold Decode_accepts. now intros ->.
  - unfold Decode_accepts. destruct (Decode buffer) as [m | e'];
      [discriminate | now destruct e, e'].
  - now intros [].
Qed.

(** C3: [Decode] accepts every buffer of at least four bytes whose type byte
    is 0 or 8, reporting that type and the code byte; if the buffer has
    fewer than eight bytes, the identifier and the sequence number are 0 and
    the payload is empty. *)
Theorem Decode_accepts_from_4 (buffer : list N) (t : N) :
  (4 <= length buffer)%nat ->
  buffer !! 0%nat = Some t ->
  t = 0 \/ t = 8 ->
  exists m,
    Decode buffer = DecodeOk m
    /\ Decode_accepts buffer = true
    /\ type m = t
    /\ code m = nth 1 buffer 0
    /\ ((length buffer < 8)%nat ->
        identifier m = 0 /\ sequence_number m = 0 /\ data m = []).
Proof.
  intros Hlong Hhead Ht.
  assert (Hdec := Decode_long buffer Hlong).
  destruct buffer as [| t' rest]; [discriminate |].
  cbn in Hhead. injection Hhead as ->. cbn [nth] in Hdec.
  assert (Hok : negb ((t =? 0) || (t =? 8)) = false)
    by (destruct Ht as [-> | ->]; reflexivity).
  rewrite Hok in Hdec.
  eexists. split; [exact Hdec |].
  split; [unfold Decode_accepts; now rewrite Hdec |].
  unfold type, code, identifier, sequence_number, data.
  cbn [type_ code_ identifier_ sequence_number_ data_ nth].
  split; [reflexivity |]. split; [reflexivity |].
  intros Hshort. rewrite (proj2 (Nat.leb_gt _ _) Hshort).
  split; [reflexivity |]. split; [reflexivity |].
  apply drop_ge. lia.
Qed.

(** The buffer of the repository's acceptance test. *)
Lemma Decode_accepts_from_4_witness :
  exists m,
    Decode [8; 0; 0; 0] = DecodeOk m
    /\ Decode_accepts [8; 0; 0; 0] = true
    /\ type m = 8
    /\ code m = 0
    /\ identifier m = 0
    /\ sequence_number m = 0
    /\ data m = [].
Proof.
  destruct (Decode_accepts_from_4 [8; 0; 0; 0] 8) as (m & Hm & Hacc & Hty & Hco & Hshort).
  - cbn. lia.
  - reflexivity.
  - now right.
  - destruct Hshort as (Hid & Hseq & Hdata); [cbn; lia |].
    exists m. repeat split; assumption.
Defined.

(** ** Checksum: padding and verification *)

Lemma words_total_pad (buffer : list N) :
  Nat.odd (length buffer) = true ->
  words_total (buffer ++ [0]) = words_total buffer.
Proof.
  induction buffer as [| b | b0 b1 rest IH] using list_pair_ind; intros Hodd.
  - discriminate.
  - cbn [app words_total]. now rewrite N.lor_0_r, N.add_0_r.
  - cbn [app words_total]. rewrite IH; [reflexivity | exact Hodd].
Qed.

(** C7: a buffer of odd length has the checksum of the same buffer with one
    zero byte appended: its last byte counts as the high byte of a word whose
    low byte is zero. *)
Theorem ComputeChecksum_odd_padding (buffer : list N) :
  Nat.odd (length buffer) = true ->
  ComputeChecksum (buffer ++ [0]) = ComputeChecksum buffer
  /\ sum_before_fold (buffer ++ [0]) = sum_before_fold buffer
  /\ sum_before_fold buffer =
       to_uint32 (sum_words buffer 0 + to_uint16 (N.shiftl (List.last buffer 0) 8)).
Proof.
  intros Hodd.
  assert (Hsum : sum_before_fold (buffer ++ [0]) = sum_before_fold buffer)
    by now rewrite !sum_before_fold_total, words_total_pad.
  repeat split.
  - rewrite !ComputeChecksum_eq. unfold sum_after_fold. now rewrite Hsum.
  - exact Hsum.
  - unfold sum_before_fold, add_odd_byte.
    replace (N.of_nat (length buffer) mod 2 =? 1) with true; [reflexivity |].
    symmetry. apply N.eqb_eq. apply Nat.odd_spec in Hodd as [k Hk]. lia.
Qed.

Lemma ComputeChecksum_odd_padding_witness :
  ComputeChecksum ([1] ++ [0]) = ComputeChecksum [1].
Proof.
  apply (ComputeChecksum_odd_padding [1]). reflexivity.
Defined.

(** ** Checksum against the specification's algorithm *)

Section Refinement.

Lemma word_uint8 (hi lo : N) :
  is_uint8 hi -> is_uint8 lo ->
  to_uint16 (N.lor (N.shiftl hi 8) lo) = RFC1071.word hi lo.
Proof.
  intros Hhi Hlo. unfold RFC1071.word.
  rewrite lor_shiftl_8 by exact Hlo. uint_lia.
Qed.

Lemma words_total_word_sum (buffer : list N) :
  Forall is_uint8 buffer -> words_total buffer = RFC1071.word_sum buffer.
Proof.
  induction buffer as [| b | b0 b1 rest IH] using list_pair_ind; intros Hbytes.
  - reflexivity.
  - apply Forall_cons in Hbytes as [Hb _]. cbn [words_total RFC1071.word_sum].
    rewrite <- (N.lor_0_r (N.shiftl b 8)). apply word_uint8; [exact Hb |].
    unfold is_uint8. reflexivity.
  - apply Forall_cons in Hbytes as [Hb0 Hbytes].
    apply Forall_cons in Hbytes as [Hb1 Hbytes].
    cbn [words_total RFC1071.word_sum].
    now rewrite IH, word_uint8.
Qed.

(** Each word is at most [0xFFFF], and there are [ceil (len / 2)] of them. *)
Lemma word_sum_bound (buffer : list N) :
  Forall is_uint8 buffer ->
  RFC1071.word_sum buffer <= 65535 * ((N.of_nat (length buffer) + 1) / 2).
Proof.
  induction buffer as [| b | b0 b1 rest IH] using list_pair_ind; intros Hbytes.
  - cbn. lia.
  - apply Forall_cons in Hbytes as [Hb _].
    cbn [RFC1071.word_sum length]. unfold RFC1071.word. uint_lia.
  - apply Forall_cons in Hbytes as [Hb0 Hbytes].
    apply Forall_cons in Hbytes as [Hb1 Hbytes].
    specialize (IH Hbytes).
    cbn [RFC1071.word_sum length]. unfold RFC1071.word. uint_lia.
Qed.

Lemma carry_in_lt (sum : N) :
  65536 <= sum -> RFC1071.carry_in sum < sum.
Proof. unfold RFC1071.carry_in. change (2 ^ 16) with 65536. lia. Qed.

Lemma fold16_end_around (sum : N) : RFC1071.fold16 sum = end_around sum.
Proof.
  induction sum as [sum IH] using (well_founded_induction N.lt_wf_0).
  rewrite RFC1071.fold16_equation_1.
  destruct (decide (sum < 2 ^ 16)) as [Hlow | Hhigh]; cbn.
  - unfold end_around. change (2 ^ 16) with 65536 in Hlow.
    destruct (N.eqb_spec sum 0); lia.
  - apply N.nlt_ge in Hhigh.
    change (2 ^ 16) with 65536 in Hhigh.
    rewrite IH by now apply carry_in_lt.
    unfold end_around, RFC1071.carry_in.
    change (2 ^ 16) with 65536 in *.
    destruct (N.eqb_spec (sum mod 65536 + sum / 65536) 0),
             (N.eqb_spec sum 0); lia.
Qed.

Lemma lnot16_low (x : N) : x < 65536 -> N.lnot x 16 = 65535 - x.
Proof.
  intros Hx. rewrite N.lnot_sub_low; [reflexivity |].
  destruct (N.eq_dec x 0) as [Hz | Hnz]; [now rewrite Hz |].
  apply N.log2_lt_pow2; [lia | exact Hx].
Qed.

Lemma RFC1071_checksum_eq (buffer : list N) :
  RFC1071.checksum buffer = 65535 - end_around (RFC1071.word_sum buffer).
Proof.
  unfold RFC1071.checksum. rewrite fold16_end_around.
  apply lnot16_low, end_around_bound.
Qed.

Lemma ComputeChecksum_refines (buffer : list N) :
  Forall is_uint8 buffer ->
  N.of_nat (length buffer) <= 131074 ->
  ComputeChecksum buffer = RFC1071.checksum buffer.
Proof.
  intros Hbytes Hlen.
  rewrite ComputeChecksum_eq, sum_after_fold_eq, RFC1071_checksum_eq.
  rewrite words_total_word_sum by exact Hbytes.
  assert (Hb := word_sum_bound buffer Hbytes).
  replace (to_uint32 (RFC1071.word_sum buffer)) with (RFC1071.word_sum buffer)
    by uint_lia.
  reflexivity.
Qed.

End Refinement.

Lemma wrapping_buffer_bytes : Forall is_uint8 wrapping_buffer.
Proof.
  unfold wrapping_buffer. induction (N.to_nat 131076) as [| n IH]; cbn.
  - constructor.
  - constructor; [unfold is_uint8; reflexivity | exact IH].
Qed.

Lemma wrapping_buffer_word_sum :
  RFC1071.word_sum wrapping_buffer = 4294967296 + 65534.
Proof. vm_compute. reflexivity. Qed.

Lemma wrapping_buffer_accumulator : sum_before_fold wrapping_buffer = 65534.
Proof. vm_compute. reflexivity. Qed.

Lemma wrapping_buffer_ComputeChecksum : ComputeChecksum wrapping_buffer = 1.
Proof. vm_compute. reflexivity. Qed.

Lemma wrapping_buffer_checksum : RFC1071.checksum wrapping_buffer = 0.
Proof. vm_compute. reflexivity. Qed.

(** C6, as stated, fails on [wrapping_buffer]: the words add up to
    [2^32 + 65534], the 32-bit accumulator keeps [65534], and the function
    returns 1, where the one's-complement sum of the words is [0xFFFF] and
    its complement 0. *)
Lemma ComputeChecksum_wraps :
  Forall is_uint8 wrapping_buffer
  /\ RFC1071.word_sum wrapping_buffer = 4294967296 + 65534
  /\ sum_before_fold wrapping_buffer = 65534
  /\ ComputeChecksum wrapping_buffer = 1
  /\ RFC1071.checksum wrapping_buffer = 0
  /\ ComputeChecksum wrapping_buffer <> RFC1071.checksum wrapping_buffer.
Proof.
  refine (conj wrapping_buffer_bytes
           (conj wrapping_buffer_word_sum
             (conj wrapping_buffer_accumulator
               (conj wrapping_buffer_ComputeChecksum
                 (conj wrapping_buffer_checksum _))))).
  rewrite wrapping_buffer_ComputeChecksum, wrapping_buffer_checksum.
  discriminate.
Qed.

(** C6, amended: [ComputeChecksum] is total and its result is a 16-bit
    value on every buffer, the empty one included; on every buffer of at
    most 131074 bytes it is the checksum of the specification's algorithm
    (words summed without overflow, carries folded, result complemented);
    the checksum of [8, 0, 0, 0] is the complement of [0x0800 + 0x0000],
    which is [0xF7FF]. *)
Theorem ComputeChecksum_correct :
  (forall buffer, exists c, ComputeChecksum buffer = c /\ is_uint16 c)
  /\ (forall buffer,
        Forall is_uint8 buffer ->
        N.of_nat (length buffer) <= 131074 ->
        ComputeChecksum buffer = RFC1071.checksum buffer)
  /\ ComputeChecksum [] = 0xFFFF
  /\ ComputeChecksum [8; 0; 0; 0] = N.lnot (0x0800 + 0x0000) 16
  /\ ComputeChecksum [8; 0; 0; 0] = 0xF7FF.
Proof.
  split; [| split; [| repeat split]].
  - intros buffer. eexists. split; [reflexivity | apply ComputeChecksum_bound].
  - apply ComputeChecksum_refines.
Qed.

Lemma ComputeChecksum_correct_witness :
  ComputeChecksum [8; 0; 0; 0] = RFC1071.checksum [8; 0; 0; 0].
Proof.
  apply (proj1 (proj2 ComputeChecksum_correct)).
  - repeat constructor.
  - cbn. lia.
Defined.

(** ** Encode: layout and verification *)

Lemma Encode_bytes (m : IcmpMessage) :
  wf_message m -> Forall is_uint8 (Encode m).
Proof.
  intros Hwf. rewrite (Encode_wf m Hwf). cbv zeta.
  set (checksum := ComputeChecksum _).
  assert (Hcs : is_uint16 checksum) by apply ComputeChecksum_bound.
  destruct Hwf as [Hty Hco _ Hid Hseq Hdata].
  repeat (apply Forall_cons; split; [first [assumption | uint_lia] |]).
  exact Hdata.
Qed.

Lemma ComputeChecksum_Encode (m : IcmpMessage) : ComputeChecksum (Encode m) = 0.
Proof. now rewrite ComputeChecksum_eq, sum_after_fold_Encode. Qed.










(** ** Termination of the carry-fold loop *)

Section FoldTermination.

Lemma fold_step_high_le (sum : N) :
  N.shiftr sum 16 <> 0 -> N.shiftr (fold_step sum) 16 <= N.shiftr sum 16.
Proof.
  rewrite fold_step_eq, !shiftr_16. lia.
Qed.

(** [fold_carry] is [fold_step] run [fold_iterations] times; the loop test
    holds before each of these passes and fails after the last. *)
Lemma fold_carry_run (sum : N) :
  fold_carry sum = Nat.iter (fold_iterations sum) fold_step sum
  /\ N.shiftr (fold_carry sum) 16 = 0
  /\ forall k, (k < fold_iterations sum)%nat ->
       N.shiftr (Nat.iter k fold_step sum) 16 <> 0.
Proof.
  induction sum as [sum IH] using (well_founded_induction N.lt_wf_0).
  destruct (N.lt_ge_cases sum 65536) as [Hlow | Hhigh].
  - rewrite fold_carry_done, fold_iterations_done by exact Hlow.
    repeat split; [rewrite shiftr_16; lia | lia].
  - assert (Hne : N.shiftr sum 16 <> 0) by (rewrite shiftr_16; lia).
    rewrite fold_carry_again, fold_iterations_again by exact Hhigh.
    destruct (IH (fold_step sum) (fold_step_lt sum Hne)) as (Hrun & Hexit & Htest).
    rewrite Nat.iter_succ_r. repeat split; [exact Hrun | exact Hexit |].
    intros [| k] Hk; [exact Hne |].
    rewrite Nat.iter_succ_r. apply Htest. lia.
Qed.

End FoldTermination.

(** C9, as stated, fails on the accumulator [0x1FFFF], reached on the
    six-byte buffer below: the pass of the loop takes it to [0x10000], and the
    bits above the low 16 are 1 before and after. *)
Lemma fold_step_keeps_high_bits :
  let buffer := [0xFF; 0xFF; 0xFF; 0xFF; 0x00; 0x01] in
  let sum := sum_before_fold buffer in
  sum = 0x1FFFF
  /\ N.shiftr sum 16 = 1
  /\ fold_step sum = 0x10000
  /\ N.shiftr (fold_step sum) 16 = 1
  /\ ~ N.shiftr (fold_step sum) 16 < N.shiftr sum 16.
Proof.
  vm_compute. repeat split. discriminate.
Qed.

(** C9, amended: on every buffer the loop ends after at most two passes,
    with an accumulator that fits 16 bits, so that [ComputeChecksum] is
    total.  Each pass makes the accumulator strictly smaller and does not
    increase the bits above its low 16. *)
Theorem fold_carry_terminates (buffer : list N) :
  let sum := sum_before_fold buffer in
  let n := fold_iterations sum in
  (n <= 2)%nat
  /\ sum_after_fold buffer = Nat.iter n fold_step sum
  /\ N.shiftr (Nat.iter n fold_step sum) 16 = 0
  /\ (forall k, (k < n)%nat ->
        let before := Nat.iter k fold_step sum in
        N.shiftr before 16 <> 0
        /\ fold_step before < before
        /\ N.shiftr (fold_step before) 16 <= N.shiftr before 16)
  /\ ComputeChecksum buffer = to_uint16 (not32 (Nat.iter n fold_step sum))
  /\ is_uint16 (ComputeChecksum buffer).
Proof.
  intros sum n.
  destruct (fold_carry_run sum) as (Hrun & Hexit & Htest).
  fold n in Hrun, Htest. split; [| split; [| split; [| split; [| split]]]].
  - apply fold_iterations_le_2, sum_before_fold_bound.
  - exact Hrun.
  - now rewrite <- Hrun.
  - intros k Hk before. specialize (Htest k Hk). fold before in Htest.
    split; [exact Htest |].
    split; [now apply fold_step_lt | now apply fold_step_high_le].
  - rewrite <- Hrun. reflexivity.
  - apply ComputeChecksum_bound.
Qed.

(** ** Accessors *)

(** C10, as stated, fails for the checksum: no accessor of the class returns
    the member [checksum_]. *)
Lemma no_checksum_accessor :
  ~ (forall f : Field, exists a : Accessor, accessor_for f a).
Proof.
  intros H. destruct (H FChecksum) as [a Ha].
  specialize (Ha (IcmpMessage_new 1 1 1 1 [1])).
  destruct a; discriminate Ha.
Qed.

(** C10, amended: the type, the code, the identifier, the sequence number
    and the payload each have a read-only accessor, and on a message built
    by the five-argument constructor these return the arguments; the
    checksum has none. *)
Theorem accessors_return_constructed :
  accessor_for FType acc_type
  /\ accessor_for FCode acc_code
  /\ accessor_for FIdentifier acc_identifier
  /\ accessor_for FSequenceNumber acc_sequence_number
  /\ accessor_for FData acc_data
  /\ (forall a, ~ accessor_for FChecksum a)
  /\ forall (ty co id seq : N) (payload : list N),
       let m := IcmpMessage_new ty co id seq payload in
       type m = ty
       /\ code m = co
       /\ identifier m = id
       /\ sequence_number m = seq
       /\ data m = payload.
Proof.
  repeat split.
  intros a Ha. specialize (Ha (IcmpMessage_new 1 1 1 1 [1])).
  destruct a; discriminate Ha.
Qed.

(** * Further properties of the checksum and of the encoder *)

(** ** The checksum as a function of the summed words *)

Section WordAlgebra.

Lemma ComputeChecksum_words (buffer : list N) :
  ComputeChecksum buffer = 65535 - end_around (to_uint32 (words_total buffer)).
Proof. now rewrite ComputeChecksum_eq, sum_after_fold_eq. Qed.

Lemma ComputeChecksum_same_words (a b : list N) :
  words_total a = words_total b -> ComputeChecksum a = ComputeChecksum b.
Proof. intros H. now rewrite !ComputeChecksum_words, H. Qed.

(** A block of even length ends on a word boundary. *)
Lemma words_total_app (a b : list N) :
  Nat.even (length a) = true ->
  words_total (a ++ b) = words_total a + words_total b.
Proof.
  induction a as [| x | x y rest IH] using list_pair_ind; intros Heven.
  - reflexivity.
  - discriminate.
  - cbn [app words_total]. rewrite IH by exact Heven. lia.
Qed.

Lemma words_total_zeros (k : nat) : words_total (repeat 0 k) = 0.
Proof.
  assert (Hboth : words_total (repeat 0 k) = 0
                  /\ words_total (repeat 0 (S k)) = 0).
  { induction k as [| k [IH1 IH2]]; [split; reflexivity |].
    split; [exact IH2 |]. cbn [repeat words_total] in *. now rewrite IH1. }
  apply Hboth.
Qed.

Lemma words_total_app_zeros (buffer : list N) (k : nat) :
  words_total (buffer ++ repeat 0 k) = words_total buffer.
Proof.
  induction buffer as [| b | b0 b1 rest IH] using list_pair_ind.
  - apply words_total_zeros.
  - destruct k as [| k]; [reflexivity |].
    cbn [app repeat words_total].
    now rewrite words_total_zeros, N.lor_0_r, N.add_0_r.
  - cbn [app words_total]. now rewrite IH.
Qed.

Lemma byte_word (b : N) : is_uint8 b -> to_uint16 (N.shiftl b 8) = 256 * b.
Proof. intros Hb. rewrite shiftl_8. uint_lia. Qed.

Lemma pair_word (hi lo : N) :
  is_uint8 hi -> is_uint8 lo ->
  to_uint16 (N.lor (N.shiftl hi 8) lo) = 256 * hi + lo.
Proof.
  intros Hhi Hlo. rewrite lor_shiftl_8 by exact Hlo. uint_lia.
Qed.

(** The byte at index [i] enters the sum with weight 256 or 1; the rest of
    the sum does not depend on it. *)
Lemma words_total_insert (buffer : list N) : forall (i : nat) (b b' : N),
  Forall is_uint8 buffer ->
  buffer !! i = Some b ->
  is_uint8 b' ->
  exists others weight,
    (weight = 1 \/ weight = 256)
    /\ words_total buffer = others + weight * b
    /\ words_total (<[i := b']> buffer) = others + weight * b'.
Proof.
  induction buffer as [| b0 | b0 b1 rest IH] using list_pair_ind;
    intros i b b' Hbytes Hlook Hb'.
  - discriminate.
  - destruct i as [| i]; [| discriminate].
    apply Forall_cons in Hbytes as [Hb0 _].
    cbn in Hlook. injection Hlook as ->.
    exists 0, 256. cbn [insert list_insert words_total].
    rewrite !byte_word by assumption. split; [now right | lia].
  - apply Forall_cons in Hbytes as [Hb0 Hbytes].
    apply Forall_cons in Hbytes as [Hb1 Hbytes].
    destruct i as [| [| i]].
    + cbn in Hlook. injection Hlook as ->.
      exists (b1 + words_total rest), 256.
      cbn [insert list_insert words_total].
      rewrite !pair_word by assumption. split; [now right | lia].
    + cbn in Hlook. injection Hlook as ->.
      exists (256 * b0 + words_total rest), 1.
      cbn [insert list_insert words_total].
      rewrite !pair_word by assumption. split; [now left | lia].
    + cbn in Hlook.
      destruct (IH i b b' Hbytes Hlook Hb') as (others & weight & Hw & H1 & H2).
      exists (256 * b0 + b1 + others), weight.
      change (<[S (S i) := b']> (b0 :: b1 :: rest))
        with (b0 :: b1 :: <[i := b']> rest).
      cbn [words_total].
      rewrite H1, H2, !pair_word by assumption. split; [exact Hw | lia].
Qed.

(** Two sums that differ by less than [0xFFFF] fold to different values,
    wherever the 32-bit accumulator wraps. *)
Lemma end_around_apart (others d d' : N) :
  d <> d' -> d <= 65280 -> d' <= 65280 ->
  end_around (to_uint32 (others + d)) <> end_around (to_uint32 (others + d')).
Proof.
  intros Hne Hd Hd'. unfold end_around. uint_unfold.
  destruct (N.eqb_spec ((others + d) mod 4294967296) 0),
           (N.eqb_spec ((others + d') mod 4294967296) 0); lia.
Qed.

Lemma end_around_spec (sum : N) :
  (sum = 0 /\ end_around sum = 0)
  \/ (0 < sum /\ 1 <= end_around sum <= 65535
      /\ exists q, sum = 65535 * q + end_around sum).
Proof.
  unfold end_around. destruct (N.eqb_spec sum 0) as [Hz | Hnz]; [now left |].
  right. split; [lia |]. split; [lia |].
  exists ((sum - 1) / 65535). lia.
Qed.

Lemma end_around_add (x y : N) :
  end_around (x + y) = end_around (end_around x + end_around y).
Proof.
  destruct (end_around_spec x) as [[Hx Hx'] | (Hx & Hbx & qx & Hqx)],
           (end_around_spec y) as [[Hy Hy'] | (Hy & Hby & qy & Hqy)],
           (end_around_spec (x + y)) as [[Hs Hs'] | (Hs & Hbs & qs & Hqs)],
           (end_around_spec (end_around x + end_around y))
             as [[Hr Hr'] | (Hr & Hbr & qr & Hqr)];
    lia.
Qed.

End WordAlgebra.

(** ** What the checksum detects and what it does not *)

(** X1: on a buffer of bytes, replacing one byte by a different byte always
    changes the checksum, whatever the length of the buffer. *)
Theorem ComputeChecksum_detects_byte
    (buffer : list N) (i : nat) (b b' : N) :
  Forall is_uint8 buffer ->
  buffer !! i = Some b ->
  is_uint8 b' ->
  b <> b' ->
  ComputeChecksum (<[i := b']> buffer) <> ComputeChecksum buffer.
Proof.
  intros Hbytes Hlook Hb' Hne.
  assert (Hb : is_uint8 b).
  { rewrite Forall_lookup in Hbytes. exact (Hbytes i b Hlook). }
  destruct (words_total_insert buffer i b b' Hbytes Hlook Hb')
    as (others & weight & Hw & H1 & H2).
  rewrite !ComputeChecksum_words, H1, H2.
  assert (Hapart : end_around (to_uint32 (others + weight * b'))
                   <> end_around (to_uint32 (others + weight * b))).
  { apply end_around_apart; destruct Hw as [-> | ->]; uint_lia. }
  assert (B1 := end_around_bound (to_uint32 (others + weight * b'))).
  assert (B2 := end_around_bound (to_uint32 (others + weight * b))).
  lia.
Qed.

Lemma ComputeChecksum_detects_byte_witness :
  ComputeChecksum (<[4%nat := 0x13]> [8; 0; 0xF7; 0xFF; 0x12; 0x34; 0; 1])
  <> ComputeChecksum [8; 0; 0xF7; 0xFF; 0x12; 0x34; 0; 1].
Proof.
  apply (ComputeChecksum_detects_byte _ 4%nat 0x12 0x13).
  - repeat constructor.
  - reflexivity.
  - reflexivity.
  - discriminate.
Defined.

(** X2: an encoded message in which one byte, header or payload, has been
    replaced by a different byte no longer passes the receiver's check: the
    checksum computed over it is not zero. *)
Theorem Encode_corruption_detected
    (m : IcmpMessage) (i : nat) (b b' : N) :
  wf_message m ->
  Encode m !! i = Some b ->
  is_uint8 b' ->
  b <> b' ->
  ComputeChecksum (<[i := b']> (Encode m)) <> 0.
Proof.
  intros Hwf Hlook Hb' Hne.
  rewrite <- (ComputeChecksum_Encode m).
  now apply (ComputeChecksum_detects_byte (Encode m) i b b'); [apply Encode_bytes | ..].
Qed.

Lemma Encode_corruption_detected_witness :
  ComputeChecksum (<[9%nat := 0xAC]> (Encode sample_message)) <> 0.
Proof.
  apply (Encode_corruption_detected sample_message 9%nat 0xAD 0xAC).
  - exact sample_message_wf.
  - reflexivity.
  - reflexivity.
  - discriminate.
Defined.

(** X3: zero bytes appended to a buffer, in any number and after a buffer
    of either parity, leave the checksum unchanged; the checksum does not see
    the length of the buffer. *)
Theorem ComputeChecksum_trailing_zeros (buffer : list N) (k : nat) :
  ComputeChecksum (buffer ++ repeat 0 k) = ComputeChecksum buffer.
Proof.
  apply ComputeChecksum_same_words, words_total_app_zeros.
Qed.

(** X4: exchanging two neighbouring blocks of whole words, after a prefix of
    whole words, leaves the checksum unchanged: the checksum does not see the
    order of the 16-bit words. *)
Theorem ComputeChecksum_swap_blocks (prefix a b suffix : list N) :
  Nat.even (length prefix) = true ->
  Nat.even (length a) = true ->
  Nat.even (length b) = true ->
  ComputeChecksum (prefix ++ a ++ b ++ suffix)
  = ComputeChecksum (prefix ++ b ++ a ++ suffix).
Proof.
  intros Hp Ha Hb. apply ComputeChecksum_same_words.
  rewrite !words_total_app by assumption. lia.
Qed.

Lemma ComputeChecksum_swap_blocks_witness :
  ComputeChecksum ([8; 0] ++ [0x12; 0x34] ++ [0xAB; 0xCD; 0xEF; 0x01] ++ [7])
  = ComputeChecksum ([8; 0] ++ [0xAB; 0xCD; 0xEF; 0x01] ++ [0x12; 0x34] ++ [7]).
Proof.
  apply ComputeChecksum_swap_blocks; reflexivity.
Defined.

(** X5: a checksum stored at any word boundary makes the buffer verify.  If
    [c] is the checksum of a buffer that holds two zero bytes after a prefix
    of whole words, then the buffer with the two bytes of [c] (high byte
    first) in their place has checksum zero. *)
Theorem ComputeChecksum_embedded_verifies (prefix suffix : list N) :
  Nat.even (length prefix) = true ->
  let c := ComputeChecksum (prefix ++ [0; 0] ++ suffix) in
  ComputeChecksum
    (prefix
       ++ [to_uint8 (N.land (N.shiftr c 8) 0xFF); to_uint8 (N.land c 0xFF)]
       ++ suffix) = 0.
Proof.
  intros Hp c.
  assert (Hcs : is_uint16 c) by apply ComputeChecksum_bound.
  rewrite uint16_high_byte_masked, uint16_low_byte by exact Hcs.
  rewrite ComputeChecksum_words.
  replace (words_total (prefix ++ [c / 256; c mod 256] ++ suffix))
    with (words_total (prefix ++ [0; 0] ++ suffix) + c).
  - subst c. rewrite (ComputeChecksum_words (prefix ++ [0; 0] ++ suffix)).
    now rewrite end_around_complement.
  - cbn [app].
    rewrite (words_total_app prefix (0 :: 0 :: suffix)) by exact Hp.
    rewrite (words_total_app prefix (_ :: _ :: suffix)) by exact Hp.
    cbn [words_total].
    rewrite (lor_shiftl_8 (c / 256) (c mod 256)) by lia.
    change (to_uint16 (N.lor (N.shiftl 0 8) 0)) with 0. uint_lia.
Qed.

Lemma ComputeChecksum_embedded_verifies_witness :
  ComputeChecksum ([0x45; 0x00; 0x00; 0x1C] ++ [0xF9; 0x3A] ++ [0xC0; 0xA8; 1])
  = 0.
Proof.
  apply (ComputeChecksum_embedded_verifies [0x45; 0x00; 0x00; 0x1C] [0xC0; 0xA8; 1]).
  reflexivity.
Defined.

(** ** Computing the checksum in pieces *)

Lemma words_total_small (buffer : list N) :
  Forall is_uint8 buffer ->
  N.of_nat (length buffer) <= 131074 ->
  to_uint32 (words_total buffer) = words_total buffer.
Proof.
  intros Hbytes Hlen. rewrite words_total_word_sum by exact Hbytes.
  assert (Hb := word_sum_bound buffer Hbytes). uint_lia.
Qed.

(** X6: as long as the two parts together have at most 131074 bytes, the
    folded sum of a buffer made of a part of whole words followed by a second
    part is the fold of the two parts' folded sums, so that a checksum can be
    computed part by part. *)
Theorem ComputeChecksum_piecewise (a b : list N) :
  Forall is_uint8 a ->
  Forall is_uint8 b ->
  Nat.even (length a) = true ->
  N.of_nat (length a) + N.of_nat (length b) <= 131074 ->
  sum_after_fold (a ++ b) = fold_carry (sum_after_fold a + sum_after_fold b)
  /\ ComputeChecksum (a ++ b)
     = to_uint16 (not32 (fold_carry (sum_after_fold a + sum_after_fold b))).
Proof.
  intros Ha Hb Heven Hlen.
  assert (Hsum : sum_after_fold (a ++ b)
                 = fold_carry (sum_after_fold a + sum_after_fold b)).
  { rewrite !sum_after_fold_eq.
    assert (B1 := end_around_bound (to_uint32 (words_total a))).
    assert (B2 := end_around_bound (to_uint32 (words_total b))).
    rewrite fold_carry_end_around by uint_lia.
    rewrite <- end_around_add.
    rewrite (words_total_small a), (words_total_small b) by (assumption || lia).
    rewrite <- words_total_app by exact Heven.
    rewrite words_total_small; [reflexivity | |].
    - apply Forall_app. now split.
    - rewrite length_app. lia. }
  split; [exact Hsum |].
  rewrite <- Hsum. reflexivity.
Qed.

Lemma ComputeChecksum_piecewise_witness :
  sum_after_fold ([8; 0; 0; 0; 0x12; 0x34; 0; 1] ++ [0xDE; 0xAD; 0xBE])
  = fold_carry (sum_after_fold [8; 0; 0; 0; 0x12; 0x34; 0; 1]
                + sum_after_fold [0xDE; 0xAD; 0xBE]).
Proof.
  apply (ComputeChecksum_piecewise [8; 0; 0; 0; 0x12; 0x34; 0; 1] [0xDE; 0xAD; 0xBE]).
  - repeat constructor.
  - repeat constructor.
  - reflexivity.
  - cbn. lia.
Defined.

Lemma words_total_zero_iff (buffer : list N) :
  Forall is_uint8 buffer ->
  words_total buffer = 0 <-> Forall (fun b => b = 0) buffer.
Proof.
  induction buffer as [| b | b0 b1 rest IH] using list_pair_ind; intros Hbytes.
  - split; [constructor | reflexivity].
  - apply Forall_cons in Hbytes as [Hb _]. cbn [words_total].
    rewrite byte_word by exact Hb. split.
    + intros H. constructor; [lia | constructor].
    + intros H. apply Forall_cons in H as [-> _]. reflexivity.
  - apply Forall_cons in Hbytes as [Hb0 Hbytes].
    apply Forall_cons in Hbytes as [Hb1 Hbytes].
    cbn [words_total]. rewrite pair_word by assumption. split.
    + intros H. constructor; [lia |]. constructor; [lia |].
      apply IH; [exact Hbytes | lia].
    + intros H. apply Forall_cons in H as [-> H].
      apply Forall_cons in H as [-> H].
      apply (IH Hbytes) in H. lia.
Qed.

(** X7: on a buffer of at most 131074 bytes the checksum is [0xFFFF] exactly
    when every byte is zero; data with a byte that is not zero never have
    checksum [0xFFFF]. *)
Theorem ComputeChecksum_0xFFFF_iff (buffer : list N) :
  Forall is_uint8 buffer ->
  N.of_nat (length buffer) <= 131074 ->
  ComputeChecksum buffer = 0xFFFF <-> Forall (fun b => b = 0) buffer.
Proof.
  intros Hbytes Hlen.
  rewrite <- (words_total_zero_iff buffer Hbytes).
  rewrite ComputeChecksum_words, words_total_small by assumption.
  assert (B := end_around_bound (words_total buffer)).
  destruct (end_around_spec (words_total buffer))
    as [[Hz Hz'] | (Hpos & Hb & q & Hq)]; lia.
Qed.

Lemma ComputeChecksum_0xFFFF_iff_witness :
  ComputeChecksum [0; 0; 0; 0; 0] = 0xFFFF
  <-> Forall (fun b => b = 0) [0; 0; 0; 0; 0].
Proof.
  apply ComputeChecksum_0xFFFF_iff.
  - repeat constructor.
  - cbn. lia.
Defined.

(** ** What the encoding determines *)

Lemma uint16_bytes_inj (x y : N) :
  x / 256 = y / 256 -> x mod 256 = y mod 256 -> x = y.
Proof. lia. Qed.

(** X8: [Encode] is a function of the type, code, identifier, sequence
    number and payload alone, and on well-typed messages it is injective in
    them: two messages have the same encoding exactly when these five members
    agree.  The stored [checksum_] member plays no part. *)
Theorem Encode_eq_iff (m1 m2 : IcmpMessage) :
  wf_message m1 ->
  wf_message m2 ->
  Encode m1 = Encode m2 <->
  type m1 = type m2
  /\ code m1 = code m2
  /\ identifier m1 = identifier m2
  /\ sequence_number m1 = sequence_number m2
  /\ data m1 = data m2.
Proof.
  intros Hwf1 Hwf2. unfold type, code, identifier, sequence_number, data. split.
  - rewrite (Encode_wf m1 Hwf1), (Encode_wf m2 Hwf2). cbv zeta. cbn [app].
    intros H.
    injection H as Hty Hco _ _ Hid1 Hid0 Hseq1 Hseq0 Hdata.
    repeat split; try assumption; now apply uint16_bytes_inj.
  - destruct m1 as [t1 c1 k1 i1 s1 d1], m2 as [t2 c2 k2 i2 s2 d2].
    cbn [type_ code_ identifier_ sequence_number_ data_].
    intros (-> & -> & -> & -> & ->). reflexivity.
Qed.

Lemma Encode_eq_iff_witness :
  Encode (MkIcmpMessage 8 0 0xBEEF 0x1234 1 [0xDE; 0xAD; 0xBE])
  = Encode sample_message.
Proof.
  apply Encode_eq_iff.
  - split; unfold is_uint8, is_uint16; cbn; try lia. repeat constructor.
  - exact sample_message_wf.
  - repeat split.
Defined.

(** ** The two zeros of one's-complement arithmetic *)

(** X9: in a buffer of at most 131074 bytes that has a byte other than zero
    elsewhere, a word [0x0000] on a word boundary can be replaced by [0xFFFF]
    without changing the checksum. *)
Theorem ComputeChecksum_zero_word_blind (prefix suffix : list N) :
  Forall is_uint8 prefix ->
  Forall is_uint8 suffix ->
  Nat.even (length prefix) = true ->
  N.of_nat (length prefix) + 2 + N.of_nat (length suffix) <= 131074 ->
  ~ Forall (fun b => b = 0) (prefix ++ suffix) ->
  ComputeChecksum (prefix ++ [0xFF; 0xFF] ++ suffix)
  = ComputeChecksum (prefix ++ [0; 0] ++ suffix).
Proof.
  intros Hp Hs Heven Hlen Hnz.
  assert (Hps : Forall is_uint8 (prefix ++ suffix)) by (apply Forall_app; now split).
  assert (Hpos : words_total (prefix ++ suffix) <> 0)
    by now rewrite words_total_zero_iff.
  assert (Hwords : forall hi lo, is_uint8 hi -> is_uint8 lo ->
            to_uint32 (words_total (prefix ++ [hi; lo] ++ suffix))
            = words_total (prefix ++ suffix) + (256 * hi + lo)).
  { intros hi lo Hhi Hlo. rewrite words_total_small.
    - rewrite (words_total_app prefix ([hi; lo] ++ suffix)) by exact Heven.
      rewrite (words_total_app prefix suffix) by exact Heven.
      cbn [app words_total]. rewrite pair_word by assumption. lia.
    - apply Forall_app. split; [exact Hp |].
      apply Forall_cons; split; [exact Hhi |].
      apply Forall_cons; split; [exact Hlo | exact Hs].
    - rewrite length_app. cbn [app length]. lia. }
  rewrite !ComputeChecksum_words, !Hwords by (unfold is_uint8; reflexivity).
  f_equal.
  destruct (end_around_spec (words_total (prefix ++ suffix) + (256 * 255 + 255)))
    as [[Hz Hz'] | (H1 & Hb1 & q1 & Hq1)],
    (end_around_spec (words_total (prefix ++ suffix) + (256 * 0 + 0)))
    as [[Hy Hy'] | (H2 & Hb2 & q2 & Hq2)]; lia.
Qed.

Lemma ComputeChecksum_zero_word_blind_witness :
  ComputeChecksum ([8; 0] ++ [0xFF; 0xFF] ++ [0x12; 0x34])
  = ComputeChecksum ([8; 0] ++ [0; 0] ++ [0x12; 0x34]).
Proof.
  apply ComputeChecksum_zero_word_blind.
  - repeat constructor.
  - repeat constructor.
  - reflexivity.
  - cbn. lia.
  - intros H. apply Forall_cons in H as [H _]. discriminate H.
Defined.

(** X10: the carry-fold loop keeps the value of a 32-bit accumulator modulo
    [0xFFFF]; it returns zero only for zero, and otherwise a value from 1 to
    [0xFFFF]. *)
Theorem fold_carry_mod (sum : N) :
  is_uint32 sum ->
  fold_carry sum mod 65535 = sum mod 65535
  /\ fold_carry sum <= 65535
  /\ (fold_carry sum = 0 <-> sum = 0).
Proof.
  intros H32. rewrite fold_carry_end_around by exact H32.
  destruct (end_around_spec sum) as [[Hz Hz'] | (Hpos & Hb & q & Hq)];
    repeat split; lia.
Qed.

Lemma fold_carry_mod_witness :
  fold_carry 0xFFFFFFFF mod 65535 = 0xFFFFFFFF mod 65535
  /\ fold_carry 0xFFFFFFFF <= 65535
  /\ (fold_carry 0xFFFFFFFF = 0 <-> 0xFFFFFFFF = 0).
Proof.
  apply fold_carry_mod. reflexivity.
Defined.
